(** * An in-memory cache with per-entry time to live

    Shallow embedding of [internal/cache.go]: the [Item] and [InMemoryCache]
    structs, the four methods of the [Cache] interface ([Get], [Set],
    [Delete], [Flush]), the constructor [NewInMemoryCache] and the
    background collector ([GC], [expiredKeys], [clearItems]).

    Conventions.
    - [int64] and [time.Duration] values are integers of [Z]; the only
      arithmetic of the program that can leave the 64-bit range is the
      conversion [UnixNano] of an instant, whose wrap-around is written out.
    - [map[string]Item] is [option (gmap string Item)]: [None] is the nil
      map (reads find nothing, [delete] does nothing, an assignment panics).
    - [interface{}] is [option V] for an arbitrary payload type [V]; [None]
      is the nil interface.
    - Every method body runs under the struct's [sync.RWMutex], so a method
      is one atomic transition of the struct; the methods are written in a
      small state-and-panic monad over [InMemoryCache].
    - Each call of [time.Now()] is an explicit argument of the operation
      that makes it.
    - The lines written to standard output by [Set] and [clearItems] are
      not part of the modelled state. *)

From Stdlib Require Import ZArith Lia.
From stdpp Require Import gmap strings list fin_maps.

Local Open Scope Z_scope.

(** ** The fragment of package [time] used by the cache *)

Module GoTime.

(** An instant is its number of nanoseconds since the Unix epoch, not
    bounded to 64 bits ([time.Time] covers a far larger range than an
    [int64] of nanoseconds does). *)
Definition Time : Type := Z.

(** [time.Duration] is an [int64] count of nanoseconds. *)
Definition Duration : Type := Z.

Definition min_int64 : Z := - 2 ^ 63.
Definition max_int64 : Z := 2 ^ 63 - 1.

(** Two's complement reduction to 64 bits. *)
Definition wrap64 (z : Z) : Z := (z + 2 ^ 63) mod 2 ^ 64 - 2 ^ 63.

(** [t.Add(d)]. *)
Definition Add (t : Time) (d : Duration) : Time := t + d.

(** [t.UnixNano()]: seconds times [1e9] plus nanoseconds, computed in
    [int64], hence reduced modulo [2^64] when the instant is outside the
    representable range. *)
Definition UnixNano (t : Time) : Z := wrap64 t.

Definition representable (t : Time) : Prop := min_int64 <= t <= max_int64.

End GoTime.

Import GoTime.

(** ** Outcomes: a Go call returns or panics *)

Inductive outcome (A : Type) : Type :=
| Done (a : A)
| Panic (msg : string).

Arguments Done {A} a.
Arguments Panic {A} msg.

Section Engine.

Context {V : Type}.

(** [type Item struct] *)
Record Item : Type := mkItem {
  value : option V;
  createdAt : Time;
  expiration : Z
}.

(** [type InMemoryCache struct]; the mutex field carries no data. *)
Record InMemoryCache : Type := mkCache {
  cache : option (gmap string Item);
  defaultExpiration : Duration;
  cleanupInterval : Duration
}.

Definition with_cache (m : option (gmap string Item)) (c : InMemoryCache)
  : InMemoryCache :=
  {| cache := m;
     defaultExpiration := defaultExpiration c;
     cleanupInterval := cleanupInterval c |}.

(** *** The monad of method bodies *)

Definition M (A : Type) : Type := InMemoryCache → outcome (A * InMemoryCache).

#[local] Instance M_ret : MRet M := λ A a c, Done (a, c).

#[local] Instance M_bind : MBind M := λ A B f m c,
  match m c with
  | Done (a, c') => f a c'
  | Panic msg => Panic msg
  end.

(** *** Go's primitive operations on the [cache] field *)

(** The entry stored under [key], if any; a nil map stores none. *)
Definition lookup_item (key : string) (c : InMemoryCache) : option Item :=
  cache c ≫= (λ m : gmap string Item, m !! key).

(** [item, found := c.cache[key]] *)
Definition map_index (key : string) : M (option Item) :=
  λ c, Done (lookup_item key c, c).

(** [c.cache[key] = item] *)
Definition map_assign (key : string) (item : Item) : M unit :=
  λ c, match cache c with
       | Some m => Done (tt, with_cache (Some (<[key := item]> m)) c)
       | None => Panic "assignment to entry in nil map"
       end.

(** [delete(c.cache, key)] *)
Definition map_delete (key : string) : M unit :=
  λ c, Done (tt, with_cache (delete key <$> cache c) c).

(** The entries visited by [for k, i := range c.cache]. *)
Definition map_range : M (list (string * Item)) :=
  λ c, Done (from_option map_to_list [] (cache c), c).

(** [c.cache = make(map[string]Item)] *)
Definition map_make : M unit :=
  λ c, Done (tt, with_cache (Some ∅) c).

(** [c.cache == nil] *)
Definition map_is_nil : M bool :=
  λ c, Done (bool_decide (cache c = None), c).

(** [c.defaultExpiration] *)
Definition read_defaultExpiration : M Duration :=
  λ c, Done (defaultExpiration c, c).

(** *** The methods *)

(** [func (c *InMemoryCache) Get(key string) (interface{}, bool)];
    [now] is the reading of [time.Now()], taken only when the item has a
    positive expiration. *)
Definition Get (key : string) (now : Time) : M (option V * bool) :=
  r ← map_index key;
  match r with
  | None => mret (None, false)
  | Some item =>
      if 0 <? expiration item then
        if expiration item <? UnixNano now then mret (None, false)
        else mret (value item, true)
      else mret (value item, true)
  end.

(** [func (c *InMemoryCache) Set(key string, value interface{}, duration time.Duration)];
    [now] is the reading used for the expiration and [now'] the later one
    stored in [createdAt]. *)
Definition Set_ (key : string) (v : option V) (duration : Duration)
    (now now' : Time) : M unit :=
  dflt ← read_defaultExpiration;
  let duration := if duration =? 0 then dflt else duration in
  let expiration := if 0 <? duration then UnixNano (Add now duration) else 0 in
  map_assign key {| value := v; createdAt := now'; expiration := expiration |}.

(** [func (c *InMemoryCache) Delete(key string) error]; the error is its
    message, [None] is the nil error. *)
Definition Delete (key : string) : M (option string) :=
  r ← map_index key;
  match r with
  | None => mret (Some ("key: '" +:+ key +:+ "' not found"))
  | Some _ => map_delete key;; mret None
  end.

(** [func (c *InMemoryCache) expiredKeys() (keys []string)]; [time.Now()]
    is read afresh at every visited entry, [nowAt k] is the reading taken
    when the loop visits key [k]. Go leaves the order of a map iteration
    unspecified; here it is the order of [map_to_list]. *)
Definition expiredKeys (nowAt : string → Time) : M (list string) :=
  entries ← map_range;
  mret (foldl (λ keys (e : string * Item),
                 if (expiration e.2 <? UnixNano (nowAt e.1)) && (0 <? expiration e.2)
                 then keys ++ [e.1] else keys)
              [] entries).

(** [func (c *InMemoryCache) clearItems(keys []string)] *)
Fixpoint clearItems (keys : list string) : M unit :=
  match keys with
  | [] => mret tt
  | k :: keys' => map_delete k;; clearItems keys'
  end.

(** [func (c *InMemoryCache) Flush()] *)
Definition Flush : M unit := map_make.

(** One iteration of the [for] loop of
    [func (c *InMemoryCache) GC()], after the wait for the interval; the
    result is [false] when the loop returns. *)
Definition GC_cycle (nowAt : string → Time) : M bool :=
  isnil ← map_is_nil;
  if isnil : bool then mret false
  else
    keys ← expiredKeys nowAt;
    (if negb (length keys =? 0)%nat then clearItems keys else mret tt);;
    mret true.

(** [func (c *InMemoryCache) GC()]: the loop, for as many iterations as
    there are scans in [scans] (the loop itself has no bound); it stops
    early when an iteration returns. *)
Fixpoint GC (scans : list (string → Time)) : M unit :=
  match scans with
  | [] => mret tt
  | nowAt :: scans' =>
      continue ← GC_cycle nowAt;
      if continue : bool then GC scans' else mret tt
  end.

(** *** The engine together with its collector goroutine *)

(** Where the goroutine running [GC] stands: never started, waiting for
    the interval, past the nil test and about to scan, holding the keys
    it scanned and about to evict them, or returned. *)
Inductive sweeper : Type :=
| NotStarted
| Idle
| Scanning
| Evicting (keys : list string)
| Exited.

Record system : Type := mkSystem {
  engine : InMemoryCache;
  gc : sweeper
}.

(** [func (c *InMemoryCache) StartGC()]: [go c.GC()]. *)
Definition StartGC (s : system) : system :=
  {| engine := engine s; gc := Idle |}.

(** [func NewInMemoryCache(DefaultExpiration, CleanupInterval time.Duration) Cache] *)
Definition NewInMemoryCache (DefaultExpiration CleanupInterval : Duration)
  : system :=
  let cache := {| engine := {| cache := Some ∅;
                               defaultExpiration := DefaultExpiration;
                               cleanupInterval := CleanupInterval |};
                  gc := NotStarted |} in
  if 0 <? CleanupInterval then StartGC cache else cache.

(** The calls a client can make on the returned [Cache] interface. *)
Inductive call : Type :=
| CGet (key : string) (now : Time)
| CSet (key : string) (v : option V) (duration : Duration) (now now' : Time)
| CDelete (key : string)
| CFlush.

Inductive reply : Type :=
| RGet (v : option V) (found : bool)
| RSet
| RDelete (err : option string)
| RFlush.

Definition invoke (op : call) : M reply :=
  match op with
  | CGet key now => r ← Get key now; mret (RGet r.1 r.2)
  | CSet key v duration now now' => Set_ key v duration now now';; mret RSet
  | CDelete key => err ← Delete key; mret (RDelete err)
  | CFlush => Flush;; mret RFlush
  end.

(** The atomic transitions of the whole: a client call, or one of the
    three moves of the collector (the nil test that follows the wait,
    the scan under the read lock, the eviction under the write lock). *)
Inductive event : Type :=
| Call (op : call)
| Tick
| Scan (nowAt : string → Time)
| Evict.

Definition step (ev : event) (s : system) : option system :=
  match ev, gc s with
  | Call op, _ =>
      match invoke op (engine s) with
      | Done (_, c') => Some {| engine := c'; gc := gc s |}
      | Panic _ => None
      end
  | Tick, Idle =>
      match map_is_nil (engine s) with
      | Done (isnil, c') =>
          Some {| engine := c'; gc := if isnil : bool then Exited else Scanning |}
      | Panic _ => None
      end
  | Scan nowAt, Scanning =>
      match expiredKeys nowAt (engine s) with
      | Done (keys, c') =>
          Some {| engine := c';
                  gc := if negb (length keys =? 0)%nat then Evicting keys else Idle |}
      | Panic _ => None
      end
  | Evict, Evicting keys =>
      match clearItems keys (engine s) with
      | Done (_, c') => Some {| engine := c'; gc := Idle |}
      | Panic _ => None
      end
  | _, _ => None
  end.

Fixpoint run (evs : list event) (s : system) : option system :=
  match evs with
  | [] => Some s
  | ev :: evs' =>
      match step ev s with
      | Some s' => run evs' s'
      | None => None
      end
  end.

(** *** Vocabulary of the statements *)

(** The expiration test shared by [Get] and [expiredKeys]. *)
Definition expired (now : Time) (item : Item) : Prop :=
  0 < expiration item ∧ expiration item < UnixNano now.

Definition is_call (ev : event) : Prop :=
  match ev with Call _ => True | _ => False end.

End Engine.

(** ** Concrete runs, with string payloads *)

Definition entry (v : string) (created : Time) (exp : Z) : @Item string :=
  {| value := Some v; createdAt := created; expiration := exp |}.

(** Three entries: one expiring at 5, one without expiration, one expiring
    at 20. *)
Definition shelf : @InMemoryCache string :=
  {| cache := Some (<["a" := entry "x" 0 5]>
                   (<["b" := entry "y" 0 0]>
                   (<["c" := entry "z" 0 20]> ∅)));
     defaultExpiration := 0;
     cleanupInterval := 0 |}.

(** [shelf] once the collector has passed at time 10. *)
Definition shelf_swept : @InMemoryCache string :=
  {| cache := Some (<["b" := entry "y" 0 0]> (<["c" := entry "z" 0 20]> ∅));
     defaultExpiration := 0;
     cleanupInterval := 0 |}.

(** The program of [main]: [NewInMemoryCache(10, 20)] and one [Set]. *)
Definition main_events : list (@event string) :=
  [Call (CSet "server" (Some "https://www.google.comd") 20 1000 1001)].

Definition main_state : @system string :=
  {| engine := {| cache := Some {["server" :=
                                   entry "https://www.google.comd" 1001 1020]};
                  defaultExpiration := 10;
                  cleanupInterval := 20 |};
     gc := Idle |}.

(** A reading of the clock in November 2023. *)
Definition clock_2023 : Time := 1700000000000000000.

(** The engine after a [Set] of ["a"] at that time with the largest
    duration ([math.MaxInt64]) as time to live: the instant of expiration
    lies beyond the [int64] range and [UnixNano] wraps to a negative
    number. *)
Definition forever : @InMemoryCache string :=
  {| cache := Some {["a" := entry "x" clock_2023 (-7523372036854775809)]};
     defaultExpiration := 0;
     cleanupInterval := 0 |}.

(** The race of the collector with a writer: the entry of ["a"] expires,
    the scan lists it, a client writes ["a"] again, the eviction runs. *)
Definition race_events : list (@event string) :=
  [Call (CSet "a" (Some "old") 5 0 0); Tick; Scan (λ _, 10);
   Call (CSet "a" (Some "fresh") 100 10 10)].

Definition race_before_evict : @system string :=
  {| engine := {| cache := Some {["a" := entry "fresh" 10 110]};
                  defaultExpiration := 0;
                  cleanupInterval := 1 |};
     gc := Evicting ["a"] |}.

Definition race_after_evict : @system string :=
  {| engine := {| cache := Some ∅;
                  defaultExpiration := 0;
                  cleanupInterval := 1 |};
     gc := Idle |}.

(** An engine built with a zero cleanup interval, after one [Set] and one
    [Get] that found the entry expired. *)
Definition unswept : @system string :=
  {| engine := {| cache := Some {["a" := entry "x" 0 5]};
                  defaultExpiration := 0;
                  cleanupInterval := 0 |};
     gc := NotStarted |}.

(** ** Proofs *)

Section EngineFacts.

Context {V : Type}.

#[local] Abbreviation Item := (@Item V).
#[local] Abbreviation InMemoryCache := (@InMemoryCache V).
#[local] Abbreviation system := (@system V).
#[local] Abbreviation call := (@call V).
#[local] Abbreviation reply := (@reply V).
#[local] Abbreviation event := (@event V).
#[local] Abbreviation NewInMemoryCache := (@NewInMemoryCache V).

(** Unfolds the monad so that a method body becomes a term on the state. *)
Ltac run_body :=
  unfold Get, Set_, Delete, Flush, GC_cycle, expiredKeys,
    map_index, map_assign, map_delete, map_range, map_make, map_is_nil,
    read_defaultExpiration, mbind, M_bind, mret, M_ret.

Lemma with_cache_same (c : InMemoryCache) : with_cache (cache c) c = c.
Proof. by destruct c. Qed.

Lemma wrap64_representable (t : Time) : representable t → wrap64 t = t.
Proof.
  unfold representable, min_int64, max_int64, wrap64. intros Ht.
  rewrite Z.mod_small; lia.
Qed.

Lemma wrap64_range (t : Time) : representable (wrap64 t).
Proof.
  unfold representable, min_int64, max_int64, wrap64.
  pose proof (Z.mod_pos_bound (t + 2 ^ 63) (2 ^ 64)). lia.
Qed.

(** Past the largest [int64], the reduction subtracts [2^64]: an instant
    less than [2^64] is then rendered as a negative number. *)
Lemma wrap64_overflow (t : Time) :
  max_int64 < t → t < 2 ^ 64 → wrap64 t = t - 2 ^ 64.
Proof.
  unfold max_int64, min_int64, wrap64.
  change (2 ^ 64) with 18446744073709551616.
  change (2 ^ 63) with 9223372036854775808. intros Hlo Hhi.
  replace (t + 9223372036854775808)
    with ((t - 9223372036854775808) + 1 * 18446744073709551616) by lia.
  rewrite Z_mod_plus_full, Z.mod_small; lia.
Qed.

Lemma if_eqb_decide {A : Type} (x y : Z) (a b : A) :
  (if x =? y then a else b) = (if decide (x = y) then a else b).
Proof. destruct (Z.eqb_spec x y); case_decide; done. Qed.

Lemma if_ltb_decide {A : Type} (x y : Z) (a b : A) :
  (if x <? y then a else b) = (if decide (x < y) then a else b).
Proof. destruct (Z.ltb_spec x y); case_decide; done || lia. Qed.

(** *** Get *)

Lemma Get_unfold (key : string) (now : Time) (c : InMemoryCache) :
  Get key now c =
  Done (match lookup_item key c with
        | None => (None, false)
        | Some item =>
            if decide (expired now item) then (None, false)
            else (value item, true)
        end, c).
Proof.
  run_body. unfold expired.
  destruct (lookup_item key c) as [item|]; [|done].
  destruct (Z.ltb_spec 0 (expiration item)) as [Hpos|Hpos].
  - destruct (Z.ltb_spec (expiration item) (UnixNano now)) as [Hlt|Hlt].
    + rewrite decide_True; [done | lia].
    + rewrite decide_False; [done | lia].
  - rewrite decide_False; [done | lia].
Qed.

(** C2 (amended): [Get] reports not-found for an absent key, and for a
    present key whose expiration is positive and strictly before the
    current time; it returns the stored value with found=true for a
    present key whose expiration is zero or negative, or not strictly
    before the current time. *)
Theorem Get_spec (key : string) (now : Time) (c : InMemoryCache) :
  (lookup_item key c = None → Get key now c = Done ((None, false), c)) ∧
  (∀ item, lookup_item key c = Some item →
     0 < expiration item → expiration item < UnixNano now →
     Get key now c = Done ((None, false), c)) ∧
  (∀ item, lookup_item key c = Some item →
     expiration item ≤ 0 ∨ UnixNano now ≤ expiration item →
     Get key now c = Done ((value item, true), c)).
Proof.
  rewrite Get_unfold. split_and!.
  - by intros ->.
  - intros item -> Hpos Hlt. rewrite decide_True; [done | by split].
  - intros item -> Hnot. rewrite decide_False; [done |].
    unfold expired. lia.
Qed.

(** C7: [Get] hands back the very state it was given, whatever the key;
    on a present but expired entry it reports not-found and the entry is
    still stored afterwards. *)
Theorem Get_readonly (key : string) (now : Time) (c : InMemoryCache) :
  (∃ r, Get key now c = Done (r, c)) ∧
  (∀ item, lookup_item key c = Some item → expired now item →
     ∃ c', Get key now c = Done ((None, false), c') ∧
           lookup_item key c' = Some item ∧
           ∀ k, lookup_item k c' = lookup_item k c).
Proof.
  rewrite Get_unfold. split; [by eexists |].
  intros item Hitem Hexp. exists c. rewrite Hitem.
  by rewrite decide_True.
Qed.

(** *** Flush *)

(** C5: after [Flush] the map is a fresh empty one, and [Get] finds no key
    in it, at any time. *)
Theorem Flush_empties (c : InMemoryCache) :
  ∃ c', Flush c = Done (tt, c') ∧
        cache c' = Some ∅ ∧
        (∀ key, lookup_item key c' = None) ∧
        (∀ key now, Get key now c' = Done ((None, false), c')).
Proof.
  eexists. split; [reflexivity |]. split; [done |].
  assert (Hnone : ∀ key, lookup_item key (with_cache (Some ∅) c) = None).
  { intros key. unfold lookup_item. simpl. apply lookup_empty. }
  split; [done |].
  intros key now. by rewrite Get_unfold, Hnone.
Qed.

(** *** Delete *)

Lemma lookup_item_delete (key k : string) (c : InMemoryCache) :
  lookup_item k (with_cache (delete key <$> cache c) c) =
  if decide (key = k) then None else lookup_item k c.
Proof.
  unfold lookup_item. simpl. destruct (cache c) as [m|]; simpl.
  - apply lookup_delete.
  - by case_decide.
Qed.

Lemma Delete_unfold (key : string) (c : InMemoryCache) :
  Delete key c =
  match lookup_item key c with
  | None => Done (Some ("key: '" +:+ key +:+ "' not found"), c)
  | Some _ => Done (None, with_cache (delete key <$> cache c) c)
  end.
Proof.
  run_body. by destruct (lookup_item key c).
Qed.

(** C4: [Delete] returns the not-found error exactly when the key is
    absent, and then the state is unchanged; on a present key it returns
    the nil error, removes that entry and no other, and a later [Get] of
    the key reports not-found. *)
Theorem Delete_spec (key : string) (c : InMemoryCache) :
  ∃ err c',
    Delete key c = Done (err, c') ∧
    (is_Some err ↔ lookup_item key c = None) ∧
    (lookup_item key c = None →
       err = Some ("key: '" +:+ key +:+ "' not found") ∧ c' = c) ∧
    (is_Some (lookup_item key c) →
       err = None ∧
       cache c' = delete key <$> cache c ∧
       defaultExpiration c' = defaultExpiration c ∧
       cleanupInterval c' = cleanupInterval c ∧
       lookup_item key c' = None ∧
       (∀ k, k ≠ key → lookup_item k c' = lookup_item k c) ∧
       (∀ now, Get key now c' = Done ((None, false), c'))).
Proof.
  rewrite Delete_unfold.
  destruct (lookup_item key c) as [item|] eqn:Hitem.
  - exists None, (with_cache (delete key <$> cache c) c).
    split; [done |]. split.
    { split; [by intros [? ?] | done]. }
    split; [done |]. intros _.
    assert (Hgone : lookup_item key (with_cache (delete key <$> cache c) c) = None).
    { rewrite lookup_item_delete. by rewrite decide_True. }
    split_and!; try done.
    + intros k Hk. rewrite lookup_item_delete. by rewrite decide_False.
    + intros now. by rewrite Get_unfold, Hgone.
  - eexists _, c. split; [done |]. split.
    { split; [done | by eexists]. }
    split; [done |]. by intros [? ?].
Qed.

(** *** Set *)

Lemma lookup_item_assign (key k : string) (item : Item)
    (m : gmap string Item) (c : InMemoryCache) :
  lookup_item k (with_cache (Some (<[key := item]> m)) c) =
  if decide (key = k) then Some item else m !! k.
Proof. unfold lookup_item. simpl. apply lookup_insert. Qed.

Lemma Set_unfold (key : string) (v : option V) (ttl : Duration)
    (now now' : Time) (c : InMemoryCache) :
  Set_ key v ttl now now' c =
  let d := if decide (ttl = 0) then defaultExpiration c else ttl in
  let e := if decide (0 < d) then UnixNano (Add now d) else 0 in
  match cache c with
  | Some m =>
      Done (tt, with_cache
                  (Some (<[key := {| value := v; createdAt := now';
                                     expiration := e |}]> m)) c)
  | None => Panic "assignment to entry in nil map"
  end.
Proof.
  run_body. cbv zeta. by rewrite if_eqb_decide, if_ltb_decide.
Qed.

(** C3 (amended): [Set] replaces a zero [ttl] by the configured default;
    when the resulting duration is positive the stored expiration is the
    [UnixNano] of the current time plus that duration, which is the plain
    sum when that instant fits an [int64] and the sum less [2^64], a
    negative number, when it lies beyond (clock and duration being in the
    [int64] range); when the resulting duration is zero or negative, a
    negative [ttl] passed directly included, the stored expiration is the
    sentinel [0], which [Get] never reports expired. *)
Theorem Set_expiration_spec (key : string) (v : option V) (ttl : Duration)
    (now now' : Time) (c : InMemoryCache) (m : gmap string Item) :
  cache c = Some m →
  ∃ d e c',
    d = (if decide (ttl = 0) then defaultExpiration c else ttl) ∧
    Set_ key v ttl now now' c = Done (tt, c') ∧
    cache c' = Some (<[key := {| value := v; createdAt := now';
                                 expiration := e |}]> m) ∧
    lookup_item key c' = Some {| value := v; createdAt := now';
                                 expiration := e |} ∧
    (0 < d → e = UnixNano (Add now d) ∧
             (representable (now + d) → e = now + d) ∧
             (representable now → representable d → max_int64 < now + d →
                e = now + d - 2 ^ 64 ∧ e < 0)) ∧
    (d ≤ 0 → e = 0 ∧ ∀ t, Get key t c' = Done ((v, true), c')) ∧
    (ttl < 0 → d = ttl ∧ e = 0).
Proof.
  intros Hm. rewrite Set_unfold, Hm. cbv zeta.
  set (d := if decide (ttl = 0) then defaultExpiration c else ttl).
  set (e := if decide (0 < d) then UnixNano (Add now d) else 0).
  exists d, e. eexists. split; [done |]. split; [done |]. split; [done |].
  assert (Hlk : lookup_item key
            (with_cache (Some (<[key := {| value := v; createdAt := now';
                                           expiration := e |}]> m)) c)
          = Some {| value := v; createdAt := now'; expiration := e |}).
  { rewrite lookup_item_assign. by rewrite decide_True. }
  split; [done |].
  assert (Hzero : d ≤ 0 → e = 0).
  { intros Hd. subst e. rewrite decide_False; [done | lia]. }
  split_and!.
  - intros Hd. subst e. rewrite decide_True by done. split; [done |].
    unfold UnixNano, Add. split.
    + intros Hrep. by apply wrap64_representable.
    + intros Hnow Hdur Hover. rewrite wrap64_overflow.
      * unfold representable, min_int64, max_int64 in *. lia.
      * done.
      * unfold representable, min_int64, max_int64 in *. lia.
  - intros Hd. split; [by apply Hzero |].
    intros t. rewrite Get_unfold, Hlk. rewrite decide_False; [done |].
    unfold expired. simpl. rewrite (Hzero Hd). lia.
  - intros Hneg.
    assert (Hd : d = ttl) by (subst d; rewrite decide_False; [done | lia]).
    split; [done |]. apply Hzero. lia.
Qed.

(** C9: for a key [k'] other than [k], neither [Set] on [k] nor [Delete]
    on [k] changes the entry stored under [k'] (its value, creation time
    and expiration). On a nil map [Set] panics and produces no state. *)
Theorem Set_Delete_frame (k k' : string) (v : option V) (ttl : Duration)
    (now now' : Time) (c : InMemoryCache) :
  k' ≠ k →
  (is_Some (cache c) →
     ∃ c', Set_ k v ttl now now' c = Done (tt, c') ∧
           lookup_item k' c' = lookup_item k' c) ∧
  (cache c = None → ∃ msg, Set_ k v ttl now now' c = Panic msg) ∧
  (∃ err c', Delete k c = Done (err, c') ∧
             lookup_item k' c' = lookup_item k' c).
Proof.
  intros Hne. split_and!.
  - intros [m Hm]. rewrite Set_unfold, Hm. cbv zeta. eexists.
    split; [done |]. rewrite lookup_item_assign.
    rewrite decide_False by done. unfold lookup_item. by rewrite Hm.
  - intros Hnil. rewrite Set_unfold, Hnil. by eexists.
  - rewrite Delete_unfold. destruct (lookup_item k c).
    + eexists _, _. split; [done |]. rewrite lookup_item_delete.
      by rewrite decide_False.
    + by eexists _, _.
Qed.

(** *** The collector: clearItems *)

Lemma with_cache_twice (o o' : option (gmap string Item)) (c : InMemoryCache) :
  with_cache o (with_cache o' c) = with_cache o c.
Proof. done. Qed.

Lemma clearItems_unfold (keys : list string) (c : InMemoryCache) :
  clearItems keys c =
  Done (tt, with_cache
              ((λ m, foldl (λ acc k, delete k acc) m keys) <$> cache c) c).
Proof.
  revert c. induction keys as [|k keys IH]; intros c; simpl.
  - unfold mret, M_ret. rewrite option_fmap_id. by rewrite with_cache_same.
  - unfold mbind, M_bind, map_delete. rewrite IH. simpl.
    rewrite with_cache_twice. by destruct (cache c).
Qed.

Lemma lookup_foldl_delete (keys : list string) (m : gmap string Item)
    (k : string) :
  foldl (λ acc k, delete k acc) m keys !! k =
  if decide (k ∈ keys) then None else m !! k.
Proof.
  revert m. induction keys as [|k0 keys IH]; intros m; cbn [foldl].
  - rewrite decide_False; [done | apply not_elem_of_nil].
  - rewrite IH. destruct (decide (k ∈ keys)) as [Hin|Hout].
    + rewrite decide_True; [done | by right].
    + rewrite lookup_delete. destruct (decide (k0 = k)) as [->|Hk].
      * rewrite decide_True; [done | by left].
      * rewrite decide_False; [done |].
        intros [->|?]%elem_of_cons; done.
Qed.

Lemma clearItems_lookup (keys : list string) (c : InMemoryCache) (k : string) :
  lookup_item k
    (with_cache ((λ m, foldl (λ acc k, delete k acc) m keys) <$> cache c) c) =
  if decide (k ∈ keys) then None else lookup_item k c.
Proof.
  unfold lookup_item. simpl. destruct (cache c) as [m|]; simpl.
  - apply lookup_foldl_delete.
  - by case_decide.
Qed.


(** *** The collector: expiredKeys and one cycle *)

Lemma elem_of_scan (nowAt : string → Time) (entries : list (string * Item))
    (acc : list string) (k : string) :
  k ∈ foldl (λ keys (e : string * Item),
               if (expiration e.2 <? UnixNano (nowAt e.1)) && (0 <? expiration e.2)
               then keys ++ [e.1] else keys) acc entries
  ↔ k ∈ acc ∨ ∃ item, (k, item) ∈ entries ∧ expired (nowAt k) item.
Proof.
  revert acc. induction entries as [|[k0 i0] entries IH]; intros acc; cbn [foldl].
  - split; [by left |]. intros [?|(item & Hin & _)]; [done |].
    by apply elem_of_nil in Hin.
  - rewrite IH. cbn [fst snd]. unfold expired.
    destruct (Z.ltb_spec (expiration i0) (UnixNano (nowAt k0))) as [Hlt|Hlt];
      destruct (Z.ltb_spec 0 (expiration i0)) as [Hpos|Hpos]; cbn [andb].
    1: { rewrite elem_of_app, list_elem_of_singleton. split.
         - intros [[?| ->]|(item & Hin & Hexp)].
           + by left.
           + right. exists i0. split; [by left | done].
           + right. exists item. split; [by right | done].
         - intros [?|(item & Hin & Hexp)]; [by left; left |].
           apply elem_of_cons in Hin as [Heq|Hin].
           + injection Heq as -> ->. by left; right.
           + right. by exists item. }
    all: split;
      [ intros [?|(item & Hin & Hexp)]; [by left |];
        right; exists item; split; [by right | done]
      | intros [?|(item & Hin & Hexp)]; [by left |];
        apply elem_of_cons in Hin as [Heq|Hin];
        [ injection Heq as -> ->; lia | right; by exists item ] ].
Qed.

Lemma expiredKeys_spec (nowAt : string → Time) (c : InMemoryCache) :
  ∃ keys, expiredKeys nowAt c = Done (keys, c) ∧
          ∀ k, k ∈ keys ↔
               ∃ item, lookup_item k c = Some item ∧ expired (nowAt k) item.
Proof.
  run_body. eexists. split; [done |]. intros k.
  rewrite elem_of_scan. unfold lookup_item.
  destruct (cache c) as [m|]; simpl.
  - split.
    + intros [Hin|(item & Hin & Hexp)]; [by apply elem_of_nil in Hin |].
      exists item. by rewrite <- elem_of_map_to_list.
    + intros (item & Hin & Hexp). right. exists item.
      by rewrite elem_of_map_to_list.
  - split.
    + intros [Hin|(item & Hin & _)]; by apply elem_of_nil in Hin.
    + by intros (item & ? & _).
Qed.

(** C6 (amended): one iteration of the collector's loop with nothing
    interleaved removes exactly the keys whose entry has a positive
    expiration strictly before the time read when the scan visits it, and
    leaves every other entry, and the two configuration fields, unchanged;
    when there is no such key the removal is skipped and the state is the
    same state. *)
Theorem GC_cycle_spec (nowAt : string → Time) (c : InMemoryCache) :
  ∃ continue c',
    GC_cycle nowAt c = Done (continue, c') ∧
    (continue = true ↔ is_Some (cache c)) ∧
    defaultExpiration c' = defaultExpiration c ∧
    cleanupInterval c' = cleanupInterval c ∧
    (∀ k, lookup_item k c' =
          match lookup_item k c with
          | Some item => if decide (expired (nowAt k) item) then None
                         else Some item
          | None => None
          end) ∧
    ((∀ k item, lookup_item k c = Some item → ¬ expired (nowAt k) item) →
       expiredKeys nowAt c = Done ([], c) ∧ c' = c).
Proof.
  destruct (expiredKeys_spec nowAt c) as (keys & Hscan & Hkeys).
  unfold GC_cycle, map_is_nil, mbind, M_bind, mret, M_ret.
  destruct (cache c) as [m|] eqn:Hm.
  - rewrite bool_decide_eq_false_2 by done. rewrite Hscan.
    destruct keys as [|k0 keys]; cbn [length Nat.eqb negb].
    + exists true, c. split; [done |]. split; [by split; [eexists|] |].
      split; [done |]. split; [done |]. split; [| done].
      intros k. destruct (lookup_item k c) as [item|] eqn:Hk; [| done].
      rewrite decide_False; [done |]. intros Hexp.
      eapply not_elem_of_nil, Hkeys. eauto.
    + rewrite clearItems_unfold.
      eexists true, _. split; [done |]. split; [by split; [eexists|] |].
      split; [done |]. split; [done |]. split.
      * intros k. rewrite clearItems_lookup.
        destruct (lookup_item k c) as [item|] eqn:Hk.
        -- destruct (decide (expired (nowAt k) item)) as [Hexp|Hexp].
           ++ rewrite decide_True; [done |]. apply Hkeys. eauto.
           ++ rewrite decide_False; [done |].
              intros (item' & Hk' & Hexp')%Hkeys. congruence.
        -- by case_decide.
      * intros Hnone. exfalso.
        assert (Hin : k0 ∈ k0 :: keys) by by left.
        apply Hkeys in Hin as (item & Hk & Hexp). by eapply Hnone.
  - rewrite bool_decide_eq_true_2 by done.
    exists false, c. split; [done |].
    split; [by split; [| intros [? ?]] |].
    split; [done |]. split; [done |]. split.
    + intros k. unfold lookup_item. by rewrite Hm.
    + intros _. split; [| done].
      rewrite Hscan. do 2 f_equal. destruct keys as [|k0 keys]; [done |].
      assert (Hin : k0 ∈ k0 :: keys) by by left.
      apply Hkeys in Hin as (item & Hk & _).
      unfold lookup_item in Hk. by rewrite Hm in Hk.
Qed.

(** *** Client calls and the transitions of the whole *)

Lemma invoke_unfold (op : call) (c : InMemoryCache) :
  invoke op c =
  match op with
  | CGet key now =>
      match Get key now c with
      | Done (r, c') => Done (RGet r.1 r.2, c')
      | Panic msg => Panic msg
      end
  | CSet key v ttl now now' =>
      match Set_ key v ttl now now' c with
      | Done (_, c') => Done (RSet, c')
      | Panic msg => Panic msg
      end
  | CDelete key =>
      match Delete key c with
      | Done (err, c') => Done (RDelete err, c')
      | Panic msg => Panic msg
      end
  | CFlush => Done (RFlush, with_cache (Some ∅) c)
  end.
Proof.
  destruct op; unfold invoke, mbind, M_bind, mret, M_ret; done.
Qed.

Lemma invoke_allocated (op : call) (c : InMemoryCache) :
  is_Some (cache c) →
  ∃ r c', invoke op c = Done (r, c') ∧ is_Some (cache c').
Proof.
  intros [m Hm]. rewrite invoke_unfold. destruct op.
  - rewrite Get_unfold. eexists _, _. split; [done |]. by rewrite Hm.
  - rewrite Set_unfold, Hm. cbv zeta. by eexists _, _.
  - rewrite Delete_unfold. destruct (lookup_item key c).
    + eexists _, _. split; [done |]. simpl. by rewrite Hm.
    + eexists _, _. split; [done |]. by rewrite Hm.
  - by eexists _, _.
Qed.

Lemma invoke_returns_allocated (op : call) (c c' : InMemoryCache) (r : reply) :
  invoke op c = Done (r, c') → is_Some (cache c) → is_Some (cache c').
Proof.
  intros Hinv Hc. destruct (invoke_allocated op c Hc) as (r' & c'' & Heq & ?).
  congruence.
Qed.

(** What a client call can do to the entry of a key. *)
Lemma invoke_entry (op : call) (c c' : InMemoryCache) (r : reply)
    (k : string) (item : Item) :
  invoke op c = Done (r, c') →
  lookup_item k c = Some item →
  (lookup_item k c' = None → op = CDelete k ∨ op = CFlush) ∧
  (lookup_item k c' ≠ Some item →
     (∃ v ttl now now', op = CSet k v ttl now now') ∨
     op = CDelete k ∨ op = CFlush).
Proof.
  rewrite invoke_unfold. intros Hinv Hk. destruct op.
  - rewrite Get_unfold in Hinv. injection Hinv as _ <-.
    rewrite Hk. split; [done | congruence].
  - rewrite Set_unfold in Hinv. cbv zeta in Hinv.
    destruct (cache c) as [m|] eqn:Hm; [| done].
    injection Hinv as _ <-. rewrite lookup_item_assign.
    destruct (decide (key = k)) as [->|Hne].
    + split; [done |]. intros _. left. by eexists _, _, _, _.
    + unfold lookup_item in Hk. rewrite Hm in Hk. simpl in Hk.
      rewrite Hk. split; [done | congruence].
  - rewrite Delete_unfold in Hinv.
    destruct (lookup_item key c) eqn:Hkey.
    + injection Hinv as _ <-. rewrite lookup_item_delete.
      destruct (decide (key = k)) as [->|Hne].
      * split; intros _; [by left | by right; left].
      * rewrite Hk. split; [done | congruence].
    + injection Hinv as _ <-. rewrite Hk. split; [done | congruence].
  - split; intros _; [by right | by right; right].
Qed.

Lemma step_allocated (ev : event) (s s' : system) :
  step ev s = Some s' →
  is_Some (cache (engine s)) →
  is_Some (cache (engine s')) ∧ (gc s ≠ Exited → gc s' ≠ Exited).
Proof.
  intros Hstep Hc. destruct ev; unfold step in Hstep.
  - destruct (invoke op (engine s)) as [[r c']|] eqn:Hinv.
    2: by destruct (gc s).
    assert (s' = {| engine := c'; gc := gc s |}) as ->
      by (destruct (gc s); congruence).
    split; [| done]. by eapply invoke_returns_allocated.
  - destruct (gc s); try done. unfold map_is_nil in Hstep.
    rewrite bool_decide_eq_false_2 in Hstep by (intros Hn; rewrite Hn in Hc; by destruct Hc).
    injection Hstep as <-. done.
  - destruct (gc s); try done.
    destruct (expiredKeys_spec nowAt (engine s)) as (keys & Hscan & _).
    rewrite Hscan in Hstep. injection Hstep as <-. split; [done |].
    intros _. simpl. by destruct (negb _).
  - destruct (gc s); try done.
    rewrite clearItems_unfold in Hstep. injection Hstep as <-.
    split; [| done]. simpl. destruct Hc as [m ->]. by eexists.
Qed.

Lemma step_not_started (ev : event) (s s' : system) :
  step ev s = Some s' → gc s = NotStarted →
  gc s' = NotStarted ∧ is_call ev.
Proof.
  intros Hstep Hgc. unfold step in Hstep. rewrite Hgc in Hstep.
  destruct ev; try done.
  destruct (invoke op (engine s)) as [[r c']|]; [| done].
  by injection Hstep as <-.
Qed.

Lemma run_allocated (evs : list event) (s s' : system) :
  run evs s = Some s' →
  is_Some (cache (engine s)) → gc s ≠ Exited →
  is_Some (cache (engine s')) ∧ gc s' ≠ Exited.
Proof.
  revert s. induction evs as [|ev evs IH]; intros s; cbn [run].
  - by intros [= <-].
  - destruct (step ev s) as [s1|] eqn:Hstep; [| done].
    intros Hrun Hc Hgc.
    destruct (step_allocated ev s s1 Hstep Hc) as [Hc1 Hgc1].
    apply (IH s1 Hrun Hc1). by apply Hgc1.
Qed.

Lemma run_not_started (evs : list event) (s s' : system) :
  run evs s = Some s' → gc s = NotStarted →
  gc s' = NotStarted ∧ Forall is_call evs.
Proof.
  revert s. induction evs as [|ev evs IH]; intros s; cbn [run].
  - by intros [= <-].
  - destruct (step ev s) as [s1|] eqn:Hstep; [| done].
    intros Hrun Hgc.
    destruct (step_not_started ev s s1 Hstep Hgc) as [Hgc1 Hcall].
    destruct (IH s1 Hrun Hgc1) as [? ?]. by split; [| constructor].
Qed.

Lemma NewInMemoryCache_unfold (d ci : Duration) :
  NewInMemoryCache d ci =
  {| engine := {| cache := Some ∅; defaultExpiration := d;
                  cleanupInterval := ci |};
     gc := if decide (0 < ci) then Idle else NotStarted |}.
Proof.
  unfold NewInMemoryCache, StartGC. cbv zeta.
  rewrite if_ltb_decide. by case_decide.
Qed.

(** C8: the constructor returns (it has no failing path) an engine whose
    map is allocated and empty and whose two durations are the arguments;
    the collector is started exactly when the cleanup interval is
    positive; when it is zero or negative, every execution consists of
    client calls only, the collector stays unstarted, and a stored entry
    disappears only through [Delete] of its key or [Flush] (and changes
    only through these or a [Set] of its key), expired or not. *)
Theorem NewInMemoryCache_spec (d ci : Duration) :
  cache (engine (NewInMemoryCache d ci)) = Some ∅ ∧
  defaultExpiration (engine (NewInMemoryCache d ci)) = d ∧
  cleanupInterval (engine (NewInMemoryCache d ci)) = ci ∧
  (gc (NewInMemoryCache d ci) = Idle ↔ 0 < ci) ∧
  (gc (NewInMemoryCache d ci) = NotStarted ↔ ci ≤ 0) ∧
  (ci ≤ 0 →
   ∀ evs s1, run evs (NewInMemoryCache d ci) = Some s1 →
     gc s1 = NotStarted ∧ Forall is_call evs ∧
     ∀ ev s2, step ev s1 = Some s2 →
       is_call ev ∧
       ∀ k item, lookup_item k (engine s1) = Some item →
         (lookup_item k (engine s2) = None →
            ev = Call (CDelete k) ∨ ev = Call CFlush) ∧
         (lookup_item k (engine s2) ≠ Some item →
            (∃ v ttl now now', ev = Call (CSet k v ttl now now')) ∨
            ev = Call (CDelete k) ∨ ev = Call CFlush)).
Proof.
  rewrite NewInMemoryCache_unfold. cbn [engine gc cache defaultExpiration cleanupInterval].
  split; [done |]. split; [done |]. split; [done |]. split_and!.
  - case_decide; split; done || lia.
  - case_decide; split; done || lia.
  - intros Hci evs s1 Hrun.
    rewrite decide_False in Hrun by lia.
    destruct (run_not_started _ _ _ Hrun eq_refl) as [Hgc Hcalls].
    split; [done |]. split; [done |].
    intros ev s2 Hstep.
    destruct (step_not_started _ _ _ Hstep Hgc) as [_ Hcall].
    split; [done |]. intros k item Hk.
    destruct ev as [op| | |]; try done.
    unfold step in Hstep.
    destruct (invoke op (engine s1)) as [[r c']|] eqn:Hinv.
    2: by destruct (gc s1).
    assert (s2 = {| engine := c'; gc := gc s1 |}) as ->
      by (destruct (gc s1); congruence).
    destruct (invoke_entry op _ _ r k item Hinv Hk) as [Hgone Hchanged].
    cbn [engine]. split.
    + intros Hnone. destruct (Hgone Hnone) as [->| ->]; [by left | by right].
    + intros Hne. destruct (Hchanged Hne) as [(v & ttl & now & now' & ->)|[->| ->]].
      * left. by eexists _, _, _, _.
      * by right; left.
      * by right; right.
Qed.

(** C10: in every state reached from the constructor by client calls and
    collector moves, the map is allocated: the collector has not taken
    its nil-map exit and its nil test answers false, no client call
    panics, and [Flush] installs an allocated empty map. *)
Theorem cache_never_nil (d ci : Duration) (evs : list event) (s : system) :
  run evs (NewInMemoryCache d ci) = Some s →
  is_Some (cache (engine s)) ∧
  gc s ≠ Exited ∧
  map_is_nil (engine s) = Done (false, engine s) ∧
  (∀ s', step Tick s = Some s' → gc s' = Scanning) ∧
  (∀ op, ∃ r c', invoke op (engine s) = Done (r, c') ∧ is_Some (cache c')) ∧
  (∃ c', Flush (engine s) = Done (tt, c') ∧ cache c' = Some ∅).
Proof.
  intros Hrun.
  assert (Hinit : is_Some (cache (engine (NewInMemoryCache d ci)))
                  ∧ gc (NewInMemoryCache d ci) ≠ Exited).
  { rewrite NewInMemoryCache_unfold. split; [by eexists |].
    simpl. by case_decide. }
  destruct Hinit as [Hc0 Hgc0].
  destruct (run_allocated _ _ _ Hrun Hc0 Hgc0) as [Hc Hgc].
  assert (Hnil : map_is_nil (engine s) = Done (false, engine s)).
  { unfold map_is_nil. rewrite bool_decide_eq_false_2; [done |].
    intros Hn. rewrite Hn in Hc. by destruct Hc. }
  split; [done |]. split; [done |]. split; [done |]. split_and!.
  - intros s' Hstep. unfold step in Hstep.
    destruct (gc s); try done. rewrite Hnil in Hstep. by injection Hstep as <-.
  - intros op. by apply invoke_allocated.
  - by eexists.
Qed.

End EngineFacts.

(** ** Runs on concrete states *)

Example main_runs : run main_events (NewInMemoryCache 10 20) = Some main_state.
Proof. reflexivity. Qed.

Example main_then_sweep :
  run (main_events ++ [Tick; Scan (λ _, 2000); Evict]) (NewInMemoryCache 10 20)
  = Some {| engine := {| cache := Some ∅; defaultExpiration := 10;
                         cleanupInterval := 20 |};
            gc := Idle |}.
Proof. reflexivity. Qed.

Example GC_two_cycles :
  GC [(λ _, 10); (λ _, 30)] shelf
  = Done (tt, {| cache := Some {["b" := entry "y" 0 0]};
                 defaultExpiration := 0; cleanupInterval := 0 |}).
Proof. reflexivity. Qed.

Example expiredKeys_shelf : expiredKeys (λ _, 10) shelf = Done (["a"], shelf).
Proof. reflexivity. Qed.

Example forever_by_Set :
  Set_ "a" (Some "x") max_int64 clock_2023 clock_2023
    (engine (NewInMemoryCache 0 0)) = Done (tt, forever).
Proof. reflexivity. Qed.

Example race_runs :
  run race_events (NewInMemoryCache 0 1) = Some race_before_evict.
Proof. reflexivity. Qed.



(** C2, as stated, fails: the entry of [forever] has a nonzero expiration
    and the current time is strictly after it, yet [Get] returns the
    value with found=true. *)
Lemma Get_negative_expiration_found :
  Set_ "a" (Some "x") max_int64 clock_2023 clock_2023
    (engine (NewInMemoryCache 0 0)) = Done (tt, forever) ∧
  lookup_item "a" forever = Some (entry "x" clock_2023 (-7523372036854775809)) ∧
  expiration (entry "x" clock_2023 (-7523372036854775809)) ≠ 0 ∧
  expiration (entry "x" clock_2023 (-7523372036854775809))
    < UnixNano (clock_2023 + 1) ∧
  Get "a" (clock_2023 + 1) forever = Done ((Some "x", true), forever) ∧
  Get "a" (clock_2023 + 1) forever ≠ Done ((None, false), forever).
Proof.
  split_and!; try reflexivity; try discriminate.
Qed.

Lemma Get_spec_witness :
  Get "q" 10 shelf = Done ((None, false), shelf) ∧
  Get "a" 10 shelf = Done ((None, false), shelf) ∧
  Get "b" 10 shelf = Done ((Some "y", true), shelf) ∧
  Get "c" 10 shelf = Done ((Some "z", true), shelf) ∧
  Get "a" (clock_2023 + 1) forever = Done ((Some "x", true), forever).
Proof.
  split_and!.
  - apply (proj1 (Get_spec "q" 10 shelf)). reflexivity.
  - apply (proj1 (proj2 (Get_spec "a" 10 shelf)) (entry "x" 0 5));
      reflexivity.
  - apply (proj2 (proj2 (Get_spec "b" 10 shelf)) (entry "y" 0 0));
      [reflexivity | left; discriminate].
  - apply (proj2 (proj2 (Get_spec "c" 10 shelf)) (entry "z" 0 20));
      [reflexivity | right; discriminate].
  - apply (proj2 (proj2 (Get_spec "a" (clock_2023 + 1) forever))
             (entry "x" clock_2023 (-7523372036854775809)));
      [reflexivity | left; discriminate].
Defined.

(** C3, as stated, fails: the resulting duration is positive and the
    stored expiration is not the current time plus that duration. *)
Lemma Set_expiration_not_the_sum :
  0 < max_int64 ∧
  Set_ "a" (Some "x") max_int64 clock_2023 clock_2023
    (engine (NewInMemoryCache 0 0)) = Done (tt, forever) ∧
  lookup_item "a" forever = Some (entry "x" clock_2023 (-7523372036854775809)) ∧
  expiration (entry "x" clock_2023 (-7523372036854775809))
    ≠ clock_2023 + max_int64.
Proof.
  split_and!; try reflexivity. discriminate.
Qed.

Lemma Set_expiration_spec_witness :
  (∃ c', Set_ "k" (Some "v") 0 100 101 (engine (NewInMemoryCache 50 10))
           = Done (tt, c') ∧
         lookup_item "k" c' = Some (entry "v" 101 150)) ∧
  (∃ c', Set_ "k" (Some "v") (-7) 100 101 (engine (NewInMemoryCache 50 10))
           = Done (tt, c') ∧
         lookup_item "k" c' = Some (entry "v" 101 0) ∧
         Get "k" clock_2023 c' = Done ((Some "v", true), c')) ∧
  (∃ c', Set_ "k" (Some "v") max_int64 clock_2023 (clock_2023 + 1)
           (engine (NewInMemoryCache 50 10)) = Done (tt, c') ∧
         lookup_item "k" c'
         = Some (entry "v" (clock_2023 + 1) (-7523372036854775809))).
Proof.
  split_and!.
  - destruct (Set_expiration_spec "k" (Some "v") 0 100 101
                (engine (NewInMemoryCache 50 10)) ∅ eq_refl)
      as (d & e & c' & Hd & Hset & _ & Hlk & Hpos & _ & _).
    exists c'. split; [exact Hset |]. rewrite Hlk.
    assert (Hd' : d = 50) by (rewrite Hd; reflexivity).
    rewrite Hd' in Hpos.
    destruct (Hpos eq_refl) as (_ & He & _).
    rewrite He; [reflexivity | split; discriminate].
  - destruct (Set_expiration_spec "k" (Some "v") (-7) 100 101
                (engine (NewInMemoryCache 50 10)) ∅ eq_refl)
      as (d & e & c' & Hd & Hset & _ & Hlk & _ & Hnonpos & Hneg).
    exists c'. split; [exact Hset |].
    destruct (Hneg eq_refl) as [Hd' He].
    rewrite Hlk, He. split; [reflexivity |].
    apply Hnonpos. rewrite Hd'. discriminate.
  - destruct (Set_expiration_spec "k" (Some "v") max_int64 clock_2023
                (clock_2023 + 1) (engine (NewInMemoryCache 50 10)) ∅ eq_refl)
      as (d & e & c' & Hd & Hset & _ & Hlk & Hpos & _ & _).
    exists c'. split; [exact Hset |]. rewrite Hlk.
    assert (Hd' : d = max_int64) by (rewrite Hd; reflexivity).
    rewrite Hd' in Hpos.
    destruct (Hpos eq_refl) as (_ & _ & Hover).
    destruct Hover as [He _];
      [split; discriminate | split; discriminate | reflexivity |].
    rewrite He. reflexivity.
Defined.

Lemma Delete_spec_witness :
  Delete "q" shelf = Done (Some "key: 'q' not found", shelf) ∧
  (∃ c', Delete "a" shelf = Done (None, c') ∧
         lookup_item "a" c' = None ∧
         lookup_item "b" c' = Some (entry "y" 0 0) ∧
         Get "a" 3 c' = Done ((None, false), c')).
Proof.
  split.
  - destruct (Delete_spec "q" shelf) as (err & c' & Hdel & _ & Habsent & _).
    destruct (Habsent eq_refl) as [-> ->]. exact Hdel.
  - destruct (Delete_spec "a" shelf) as (err & c' & Hdel & _ & _ & Hpresent).
    destruct (Hpresent (ex_intro _ (entry "x" 0 5) eq_refl))
      as (-> & _ & _ & _ & Hgone & Hothers & Hget).
    exists c'. split; [exact Hdel |]. split; [exact Hgone |].
    split; [| apply Hget].
    rewrite Hothers; [reflexivity | discriminate].
Defined.

(** C6, as stated, fails: the entry of [forever] has a nonzero expiration
    strictly in the past at scan time, and a cycle of the collector run
    alone neither lists nor removes it. *)
Lemma GC_cycle_keeps_negative_expiration :
  lookup_item "a" forever = Some (entry "x" clock_2023 (-7523372036854775809)) ∧
  expiration (entry "x" clock_2023 (-7523372036854775809)) ≠ 0 ∧
  expiration (entry "x" clock_2023 (-7523372036854775809))
    < UnixNano (clock_2023 + 1) ∧
  expiredKeys (λ _, clock_2023 + 1) forever = Done ([], forever) ∧
  GC_cycle (λ _, clock_2023 + 1) forever = Done (true, forever) ∧
  run [Tick; Scan (λ _, clock_2023 + 1)] {| engine := forever; gc := Idle |}
    = Some {| engine := forever; gc := Idle |}.
Proof.
  split_and!; try reflexivity; discriminate.
Qed.

Lemma GC_cycle_spec_witness :
  (∃ c', GC_cycle (λ _, 10) shelf = Done (true, c') ∧
         lookup_item "a" c' = None ∧
         lookup_item "b" c' = Some (entry "y" 0 0) ∧
         lookup_item "c" c' = Some (entry "z" 0 20)) ∧
  GC_cycle (λ _, 10) shelf_swept = Done (true, shelf_swept).
Proof.
  split.
  - destruct (GC_cycle_spec (λ _, 10) shelf)
      as (continue & c' & Hrun & Hcont & _ & _ & Hlk & _).
    assert (continue = true) as -> by (apply Hcont; by eexists).
    exists c'. split; [exact Hrun |].
    rewrite !Hlk. split_and!; reflexivity.
  - destruct (GC_cycle_spec (λ _, 10) shelf_swept)
      as (continue & c' & Hrun & Hcont & _ & _ & _ & Hskip).
    assert (continue = true) as -> by (apply Hcont; by eexists).
    destruct Hskip as [_ ->]; [| exact Hrun].
    intros k item Hk [Hpos Hlt].
    destruct (decide (k = "b")) as [->|Hb].
    { injection Hk as <-. discriminate Hpos. }
    destruct (decide (k = "c")) as [->|Hc].
    { injection Hk as <-. discriminate Hlt. }
    unfold lookup_item, shelf_swept in Hk. simpl in Hk.
    rewrite !lookup_insert_ne in Hk by done.
    by rewrite lookup_empty in Hk.
Defined.

Lemma Get_readonly_witness :
  ∃ c', Get "a" 10 shelf = Done ((None, false), c') ∧
        lookup_item "a" c' = Some (entry "x" 0 5) ∧
        ∀ k, lookup_item k c' = lookup_item k shelf.
Proof.
  apply (proj2 (Get_readonly "a" 10 shelf) (entry "x" 0 5)).
  - reflexivity.
  - split; reflexivity.
Defined.

Lemma NewInMemoryCache_spec_witness :
  gc (@NewInMemoryCache string 0 0) = NotStarted ∧
  run [Call (CSet "a" (Some "x") 5 0 0); Call (CGet "a" 10)]
      (NewInMemoryCache 0 0) = Some unswept ∧
  gc unswept = NotStarted ∧
  (∀ ev s2, step ev unswept = Some s2 →
     lookup_item "a" (engine s2) = None →
     ev = Call (CDelete "a") ∨ ev = Call CFlush).
Proof.
  destruct (@NewInMemoryCache_spec string 0 0)
    as (_ & _ & _ & _ & Hoff & Hnever).
  split; [apply Hoff; discriminate |].
  split; [reflexivity |].
  destruct (Hnever ltac:(discriminate)
              [Call (CSet "a" (Some "x") 5 0 0); Call (CGet "a" 10)]
              unswept eq_refl) as (Hgc & _ & Hstep).
  split; [exact Hgc |].
  intros ev s2 Hev Hgone.
  destruct (Hstep ev s2 Hev) as [_ Hentry].
  by apply (Hentry "a" (entry "x" 0 5) eq_refl).
Defined.

Lemma Set_Delete_frame_witness :
  (∃ c', Set_ "a" (Some "w") 7 1 1 shelf = Done (tt, c') ∧
         lookup_item "b" c' = lookup_item "b" shelf) ∧
  (∃ err c', Delete "a" shelf = Done (err, c') ∧
             lookup_item "b" c' = lookup_item "b" shelf).
Proof.
  destruct (Set_Delete_frame "a" "b" (Some "w") 7 1 1 shelf ltac:(discriminate))
    as (Hset & _ & Hdel).
  split; [apply Hset; by eexists | exact Hdel].
Defined.

Lemma cache_never_nil_witness :
  run (main_events ++ [Tick; Scan (λ _, 2000); Evict; Call CFlush])
      (NewInMemoryCache 10 20)
  = Some {| engine := {| cache := Some ∅; defaultExpiration := 10;
                         cleanupInterval := 20 |};
            gc := Idle |} ∧
  is_Some (cache (engine main_state)) ∧
  gc main_state ≠ Exited.
Proof.
  split; [reflexivity |].
  destruct (cache_never_nil 10 20 main_events main_state eq_refl)
    as (Halloc & Hgc & _).
  split; [exact Halloc | exact Hgc].
Defined.

(** ** Further laws of the engine *)

Section EngineLaws.

Context {V : Type}.

#[local] Abbreviation Item := (@Item V).
#[local] Abbreviation InMemoryCache := (@InMemoryCache V).
#[local] Abbreviation system := (@system V).
#[local] Abbreviation call := (@call V).
#[local] Abbreviation event := (@event V).
#[local] Abbreviation NewInMemoryCache := (@NewInMemoryCache V).

Lemma UnixNano_representable (t : Time) : representable t → UnixNano t = t.
Proof. apply wrap64_representable. Qed.

Lemma Set_expiration_sign (now : Time) (d : Duration) :
  representable now → representable d → 0 < d →
  (now + d ≤ max_int64 ∧ UnixNano (Add now d) = now + d) ∨
  (max_int64 < now + d ∧ UnixNano (Add now d) < 0).
Proof.
  unfold representable, UnixNano, Add. intros Hnow Hd Hpos.
  destruct (decide (now + d ≤ max_int64)) as [Hfit|Hover].
  - left. split; [done |]. apply wrap64_representable.
    unfold representable, min_int64, max_int64 in *. lia.
  - right. split; [lia |]. rewrite wrap64_overflow.
    + unfold min_int64, max_int64 in *. lia.
    + lia.
    + unfold min_int64, max_int64 in *. lia.
Qed.

(** *** Writing, then reading *)

(** What [Get] answers on the entry that [Set] stores for the resulting
    duration [d]. *)
Lemma stored_then_Get (key : string) (v : option V) (d : Duration) (e : Z)
    (now now' t : Time) (c : InMemoryCache) (m : gmap string Item) :
  representable now → representable t → representable d →
  (0 < d → e = UnixNano (Add now d)) → (d ≤ 0 → e = 0) →
  Get key t (with_cache
               (Some (<[key := {| value := v; createdAt := now';
                                  expiration := e |}]> m)) c)
  = Done (if decide (0 < d ∧ 0 < now + d ∧ now + d < t)
          then (None, false) else (v, true),
          with_cache
            (Some (<[key := {| value := v; createdAt := now';
                               expiration := e |}]> m)) c).
Proof.
  intros Hnow Ht Hd Hpos Hnonpos.
  rewrite Get_unfold, lookup_item_assign.
  rewrite (decide_True (P := key = key)) by done.
  unfold expired. cbn [expiration value].
  rewrite (UnixNano_representable t Ht).
  destruct (decide (0 < d)) as [Hd0|Hd0].
  - destruct (Set_expiration_sign now d Hnow Hd Hd0) as [[Hfit He]|[Hover Hneg]].
    + rewrite (Hpos Hd0), He.
      destruct (decide (0 < now + d ∧ now + d < t)) as [Hexp|Hlive].
      * rewrite decide_True; [done | lia].
      * rewrite decide_False; [done | lia].
    + rewrite (Hpos Hd0).
      rewrite (decide_False (P := 0 < UnixNano _ ∧ _)) by lia.
      rewrite decide_False; [done |].
      unfold representable in Ht. lia.
  - rewrite (Hnonpos ltac:(lia)).
    rewrite (decide_False (P := 0 < 0 ∧ _)) by lia.
    rewrite decide_False; [done | lia].
Qed.

(** X1: on an allocated map, with clock readings and durations in the
    [int64] range, the entry written by [Set] is found by [Get], with the
    value written, at every time up to and including the instant
    [now + d] ([d] being the [ttl], or the default when the [ttl] is zero),
    and is not found after it; when [d] or [now + d] is not positive it is
    found at every time. This covers the case where [now + d] exceeds the
    [int64] range: the stored expiration is then negative and the entry is
    found at every representable time. *)
Theorem Set_then_Get (key : string) (v : option V) (ttl : Duration)
    (now now' t : Time) (c : InMemoryCache) (m : gmap string Item) :
  cache c = Some m →
  representable now → representable t →
  representable ttl → representable (defaultExpiration c) →
  ∃ c', Set_ key v ttl now now' c = Done (tt, c') ∧
        Get key t c' =
        Done (if decide (0 < (if decide (ttl = 0) then defaultExpiration c
                              else ttl)
                         ∧ 0 < now + (if decide (ttl = 0)
                                      then defaultExpiration c else ttl)
                         ∧ now + (if decide (ttl = 0) then defaultExpiration c
                                  else ttl) < t)
              then (None, false) else (v, true), c').
Proof.
  intros Hm Hnow Ht Httl Hdflt. rewrite Set_unfold, Hm. cbv zeta.
  eexists. split; [done |].
  destruct (decide (ttl = 0)) as [Hzero|Hnonzero];
    (apply stored_then_Get; [done | done | | by case_decide | case_decide; [lia | done]]);
    done.
Qed.

(** X2: the last write wins: two [Set] on the same key leave exactly the
    state that the second one alone would leave. *)
Theorem Set_overwrites (key : string) (v1 v2 : option V) (ttl1 ttl2 : Duration)
    (t1 t1' t2 t2' : Time) (c : InMemoryCache) :
  is_Some (cache c) →
  ∃ c1 c2, Set_ key v1 ttl1 t1 t1' c = Done (tt, c1) ∧
           Set_ key v2 ttl2 t2 t2' c1 = Done (tt, c2) ∧
           Set_ key v2 ttl2 t2 t2' c = Done (tt, c2).
Proof.
  intros [m Hm]. rewrite (Set_unfold key v1), (Set_unfold key v2 ttl2 t2 t2' c), Hm.
  cbv zeta. eexists _, _. split; [done |]. split; [| done].
  rewrite Set_unfold. cbn [cache with_cache defaultExpiration].
  by rewrite insert_insert_eq.
Qed.

(** X3: two [Set] on different keys commute: either order leaves the same
    state. *)
Theorem Set_commutes (k1 k2 : string) (v1 v2 : option V) (ttl1 ttl2 : Duration)
    (t1 t1' t2 t2' : Time) (c : InMemoryCache) :
  k1 ≠ k2 → is_Some (cache c) →
  ∃ c1 c2 c', Set_ k1 v1 ttl1 t1 t1' c = Done (tt, c1) ∧
              Set_ k2 v2 ttl2 t2 t2' c1 = Done (tt, c') ∧
              Set_ k2 v2 ttl2 t2 t2' c = Done (tt, c2) ∧
              Set_ k1 v1 ttl1 t1 t1' c2 = Done (tt, c').
Proof.
  intros Hne [m Hm].
  rewrite (Set_unfold k1 v1 ttl1 t1 t1' c), (Set_unfold k2 v2 ttl2 t2 t2' c), Hm.
  cbv zeta. eexists _, _, _. split; [done |].
  rewrite !Set_unfold. cbn [cache with_cache defaultExpiration].
  split; [done |]. split; [done |].
  by rewrite (insert_insert_ne _ k2 k1).
Qed.

(** X4: [Delete] undoes [Set]: after [Set] on a key, [Delete] of that key
    returns the nil error and leaves the map without the key; when the key
    was absent before the [Set], the state is the original one. *)
Theorem Set_then_Delete (key : string) (v : option V) (ttl : Duration)
    (now now' : Time) (c : InMemoryCache) (m : gmap string Item) :
  cache c = Some m →
  ∃ c1 c2, Set_ key v ttl now now' c = Done (tt, c1) ∧
           Delete key c1 = Done (None, c2) ∧
           cache c2 = Some (delete key m) ∧
           (m !! key = None → c2 = c).
Proof.
  intros Hm. rewrite Set_unfold, Hm. cbv zeta. eexists _, _.
  split; [done |]. rewrite Delete_unfold, lookup_item_assign.
  rewrite decide_True by done. split; [done |].
  cbn [cache with_cache fmap option_fmap option_map].
  rewrite delete_insert_eq. split; [done |].
  intros Hnone. rewrite (delete_id _ _ Hnone).
  destruct c; simpl in *; by subst.
Qed.

(** X5: a second [Delete] of the same key always returns the not-found
    error and leaves the state as the first one left it. *)
Theorem Delete_twice (key : string) (c : InMemoryCache) :
  ∃ err c1, Delete key c = Done (err, c1) ∧
            Delete key c1
            = Done (Some ("key: '" +:+ key +:+ "' not found"), c1).
Proof.
  rewrite Delete_unfold. destruct (lookup_item key c) eqn:Hk.
  - eexists _, _. split; [done |]. rewrite Delete_unfold, lookup_item_delete.
    by rewrite decide_True.
  - eexists _, _. split; [done |]. by rewrite Delete_unfold, Hk.
Qed.

(** *** The collector *)

Lemma scan_NoDup (nowAt : string → Time) (entries : list (string * Item))
    (acc : list string) :
  NoDup (acc ++ entries.*1) →
  NoDup (foldl (λ keys (e : string * Item),
                  if (expiration e.2 <? UnixNano (nowAt e.1)) && (0 <? expiration e.2)
                  then keys ++ [e.1] else keys) acc entries).
Proof.
  revert acc. induction entries as [|[k i] entries IH]; intros acc Hnd; cbn [foldl].
  - by rewrite app_nil_r in Hnd.
  - apply IH. cbn [fst snd fmap list_fmap] in *.
    destruct (_ && _).
    + by rewrite <- app_assoc.
    + apply NoDup_app in Hnd as (Hacc & Hdisj & Hrest).
      apply NoDup_cons in Hrest as [_ Hrest].
      apply NoDup_app. split; [done |]. split; [| done].
      intros x Hx Hin. apply (Hdisj x Hx). by right.
Qed.

Lemma expiredKeys_NoDup (nowAt : string → Time) (c : InMemoryCache)
    (keys : list string) :
  expiredKeys nowAt c = Done (keys, c) → NoDup keys.
Proof.
  unfold expiredKeys, map_range, mbind, M_bind, mret, M_ret.
  intros [= <-]. apply scan_NoDup. cbn [app].
  destruct (cache c) as [m|]; simpl.
  - apply NoDup_fst_map_to_list.
  - constructor.
Qed.

(** X6: [expiredKeys] leaves the state unchanged and returns, each one
    exactly once, the keys whose stored entry has a positive expiration
    strictly before the time read when the scan visits it. *)
Theorem expiredKeys_exact (nowAt : string → Time) (c : InMemoryCache) :
  ∃ keys, expiredKeys nowAt c = Done (keys, c) ∧
          NoDup keys ∧
          ∀ k, k ∈ keys ↔
               ∃ item, lookup_item k c = Some item ∧ expired (nowAt k) item.
Proof.
  destruct (expiredKeys_spec nowAt c) as (keys & Hscan & Hkeys).
  exists keys. split; [done |]. split; [| done].
  by eapply expiredKeys_NoDup.
Qed.

(** X7: the state left by [clearItems] depends only on which keys occur
    in its argument, not on their order or on repetitions (the order in
    which [expiredKeys] lists the keys is that of a map iteration, which
    Go leaves unspecified). *)
Theorem clearItems_order_irrelevant (keys keys' : list string)
    (c : InMemoryCache) :
  (∀ k, k ∈ keys ↔ k ∈ keys') →
  clearItems keys c = clearItems keys' c.
Proof.
  intros Hsame. rewrite !clearItems_unfold. do 3 f_equal.
  destruct (cache c) as [m|]; [| done]. simpl. f_equal.
  apply map_eq. intros k. rewrite !lookup_foldl_delete.
  destruct (decide (k ∈ keys)) as [Hin|Hout].
  - rewrite decide_True; [done | by apply Hsame].
  - rewrite decide_False; [done | by rewrite <- Hsame].
Qed.

Lemma GC_cycle_nothing (nowAt : string → Time) (c : InMemoryCache) :
  (∀ k item, lookup_item k c = Some item → ¬ expired (nowAt k) item) →
  GC_cycle nowAt c = Done (negb (bool_decide (cache c = None)), c).
Proof.
  intros Hnone.
  destruct (expiredKeys_spec nowAt c) as (keys & Hscan & Hkeys).
  assert (keys = []) as ->.
  { destruct keys as [|k0 keys]; [done |]. exfalso.
    assert (Hin : k0 ∈ k0 :: keys) by by left.
    apply Hkeys in Hin as (item & Hk & Hexp). by eapply Hnone. }
  unfold GC_cycle, map_is_nil, mbind, M_bind, mret, M_ret.
  destruct (bool_decide (cache c = None)); [done |]. by rewrite Hscan.
Qed.

Lemma GC_cycle_entries (nowAt : string → Time) (c : InMemoryCache) :
  ∃ c', GC_cycle nowAt c = Done (negb (bool_decide (cache c = None)), c') ∧
        defaultExpiration c' = defaultExpiration c ∧
        cleanupInterval c' = cleanupInterval c ∧
        (cache c' = None ↔ cache c = None) ∧
        (cache c = None → c' = c) ∧
        ∀ k, lookup_item k c' =
             match lookup_item k c with
             | Some item => if decide (expired (nowAt k) item) then None
                            else Some item
             | None => None
             end.
Proof.
  destruct (expiredKeys_spec nowAt c) as (keys & Hscan & Hkeys).
  unfold GC_cycle, map_is_nil, mbind, M_bind, mret, M_ret.
  destruct (cache c) as [m|] eqn:Hm.
  - rewrite bool_decide_eq_false_2 by done. rewrite Hscan.
    assert (Hlk : ∀ k,
      (if decide (k ∈ keys) then None else lookup_item k c) =
      match lookup_item k c with
      | Some item => if decide (expired (nowAt k) item) then None else Some item
      | None => None
      end).
    { intros k. destruct (lookup_item k c) as [item|] eqn:Hk.
      - destruct (decide (expired (nowAt k) item)) as [Hexp|Hexp].
        + rewrite decide_True; [done |]. apply Hkeys. eauto.
        + rewrite decide_False; [done |].
          intros (item' & Hk' & Hexp')%Hkeys. congruence.
      - by case_decide. }
    destruct keys as [|k0 keys]; cbn [length Nat.eqb negb].
    + exists c. split; [done |]. split; [done |]. split; [done |].
      split; [by rewrite Hm |]. split; [done |].
      intros k. rewrite <- Hlk. rewrite decide_False; [done |].
      apply not_elem_of_nil.
    + rewrite clearItems_unfold. eexists. split; [done |].
      split; [done |]. split; [done |]. split.
      { simpl. rewrite Hm. simpl. split; intros; done. }
      split; [done |].
      intros k. by rewrite clearItems_lookup, Hlk.
  - rewrite bool_decide_eq_true_2 by done.
    exists c. split; [done |]. split; [done |]. split; [done |].
    split; [by rewrite Hm |]. split; [done |].
    intros k. unfold lookup_item. by rewrite Hm.
Qed.

(** X8: an iteration of the collector's loop repeated with the same clock
    readings changes nothing the second time. *)
Theorem GC_cycle_idempotent (nowAt : string → Time) (c : InMemoryCache) :
  ∃ continue c', GC_cycle nowAt c = Done (continue, c') ∧
                 GC_cycle nowAt c' = Done (continue, c').
Proof.
  destruct (GC_cycle_entries nowAt c)
    as (c' & Hrun & _ & _ & Hnil & _ & Hlk).
  eexists _, c'. split; [exact Hrun |].
  rewrite GC_cycle_nothing.
  - do 3 f_equal. apply bool_decide_ext. exact Hnil.
  - intros k item Hk Hexp. rewrite Hlk in Hk.
    destruct (lookup_item k c) as [item'|]; [| done].
    destruct (decide (expired (nowAt k) item')); [done |]. congruence.
Qed.

(** X9: an iteration of the collector's loop is invisible to [Get]: at any
    time not earlier than the reading the scan took at that key, [Get]
    returns the same answer before and after the iteration. *)
Theorem GC_cycle_invisible_to_Get (nowAt : string → Time) (key : string)
    (t : Time) (c : InMemoryCache) :
  UnixNano (nowAt key) ≤ UnixNano t →
  ∃ continue c' r, GC_cycle nowAt c = Done (continue, c') ∧
                   Get key t c = Done (r, c) ∧
                   Get key t c' = Done (r, c').
Proof.
  intros Hlater.
  destruct (GC_cycle_entries nowAt c)
    as (c' & Hrun & _ & _ & _ & _ & Hlk).
  eexists _, c', _. split; [exact Hrun |].
  rewrite !Get_unfold, Hlk. split; [done |].
  destruct (lookup_item key c) as [item|]; [| done].
  destruct (decide (expired (nowAt key) item)) as [Hexp|Hlive]; [| done].
  rewrite decide_True; [done |].
  unfold expired in *. lia.
Qed.

(** X10: [Delete] does not look at expirations. On a stored entry that
    has expired, [Get] reports not-found but [Delete] returns the nil
    error; once an iteration of the collector has passed, [Delete] of the
    same key returns the not-found error. *)
Theorem Delete_expired_entry (nowAt : string → Time) (key : string)
    (item : Item) (c : InMemoryCache) :
  lookup_item key c = Some item → expired (nowAt key) item →
  Get key (nowAt key) c = Done ((None, false), c) ∧
  (∃ c1, Delete key c = Done (None, c1)) ∧
  (∃ continue c', GC_cycle nowAt c = Done (continue, c') ∧
                  Delete key c'
                  = Done (Some ("key: '" +:+ key +:+ "' not found"), c')).
Proof.
  intros Hk Hexp. split_and!.
  - rewrite Get_unfold, Hk. by rewrite decide_True.
  - rewrite Delete_unfold, Hk. by eexists.
  - destruct (GC_cycle_entries nowAt c)
      as (c' & Hrun & _ & _ & _ & _ & Hlk).
    eexists _, c'. split; [exact Hrun |].
    rewrite Delete_unfold, Hlk, Hk. by rewrite decide_True.
Qed.

Lemma GC_loop_entries (scans : list (string → Time)) (c : InMemoryCache) :
  ∃ c', GC scans c = Done (tt, c') ∧
        defaultExpiration c' = defaultExpiration c ∧
        cleanupInterval c' = cleanupInterval c ∧
        (cache c' = None ↔ cache c = None) ∧
        ∀ k, lookup_item k c' =
             match lookup_item k c with
             | Some item =>
                 if decide (Exists (λ nowAt, expired (nowAt k) item) scans)
                 then None else Some item
             | None => None
             end.
Proof.
  revert c. induction scans as [|nowAt scans IH]; intros c; cbn [GC].
  - exists c. split; [done |]. split; [done |]. split; [done |].
    split; [done |]. intros k. destruct (lookup_item k c); [| done].
    rewrite decide_False; [done |]. by intros ?%Exists_nil.
  - destruct (GC_cycle_entries nowAt c)
      as (c1 & Hrun & Hd1 & Hi1 & Hnil1 & Hsame & Hlk1).
    unfold mbind, M_bind. rewrite Hrun.
    destruct (cache c) as [m|] eqn:Hm.
    + rewrite bool_decide_eq_false_2 by done. cbn [negb].
      destruct (IH c1) as (c' & Hloop & Hd & Hi & Hnil & Hlk).
      exists c'. split; [done |]. split; [congruence |].
      split; [congruence |]. split; [by rewrite Hnil |].
      intros k. rewrite Hlk, Hlk1.
      destruct (lookup_item k c) as [item|]; [| done].
      destruct (decide (expired (nowAt k) item)) as [Hexp|Hlive].
      * rewrite decide_True; [done | by left].
      * destruct (decide (Exists _ scans)) as [Hlater|Hnever].
        -- rewrite decide_True; [done | by right].
        -- rewrite decide_False; [done |].
           by intros [?|?]%Exists_cons.
    + rewrite bool_decide_eq_true_2 by done. cbn [negb].
      rewrite (Hsame eq_refl). exists c. split; [done |].
      split; [done |]. split; [done |]. split; [by rewrite Hm |].
      intros k. unfold lookup_item. by rewrite Hm.
Qed.

(** X11: the loop of [GC], run for any number of iterations with nothing
    interleaved, never panics, keeps the two configuration fields and the
    allocation of the map, and leaves exactly the entries that were not
    expired at any of the scans. On a nil map every iteration answers
    that the loop returns ([false]) and leaves the state as it is, so the
    loop ends at its first iteration; on an allocated map every iteration
    answers that the loop goes on ([true]). *)
Theorem GC_loop_spec (scans : list (string → Time)) (c : InMemoryCache) :
  (∃ c', GC scans c = Done (tt, c') ∧
         defaultExpiration c' = defaultExpiration c ∧
         cleanupInterval c' = cleanupInterval c ∧
         (cache c' = None ↔ cache c = None) ∧
         ∀ k, lookup_item k c' =
              match lookup_item k c with
              | Some item =>
                  if decide (Exists (λ nowAt, expired (nowAt k) item) scans)
                  then None else Some item
              | None => None
              end) ∧
  (cache c = None →
     ∀ nowAt, GC_cycle nowAt c = Done (false, c) ∧
              GC (nowAt :: scans) c = Done (tt, c)) ∧
  (is_Some (cache c) →
     ∀ nowAt, ∃ c1, GC_cycle nowAt c = Done (true, c1) ∧
                    GC (nowAt :: scans) c = GC scans c1).
Proof.
  split; [apply GC_loop_entries |]. split.
  - intros Hnil nowAt.
    destruct (GC_cycle_entries nowAt c) as (c1 & Hrun & _ & _ & _ & Hsame & _).
    rewrite (Hsame Hnil), bool_decide_eq_true_2 in Hrun by done.
    split; [exact Hrun |]. cbn [GC]. unfold mbind, M_bind. by rewrite Hrun.
  - intros [m Hm] nowAt.
    destruct (GC_cycle_entries nowAt c) as (c1 & Hrun & _).
    rewrite bool_decide_eq_false_2 in Hrun by (by rewrite Hm).
    exists c1. split; [exact Hrun |]. cbn [GC]. unfold mbind, M_bind.
    by rewrite Hrun.
Qed.

(** *** The zero value of the struct *)

(** X12: on a struct whose map is nil (the zero value of
    [InMemoryCache]), [Get] reports not-found, [Delete] returns the
    not-found error, [expiredKeys] returns no key, [clearItems] changes
    nothing, and the first iteration of [GC] answers that the loop returns
    ([false]), so that [GC] ends there, all leaving the state as it is;
    [Set] panics on the assignment; after [Flush], [Set] succeeds and the
    map holds that one entry. *)
Theorem zero_value_engine (key : string) (v : option V) (ttl : Duration)
    (now now' t : Time) (nowAt : string → Time)
    (scans : list (string → Time)) (keys : list string) (c : InMemoryCache) :
  cache c = None →
  Get key t c = Done ((None, false), c) ∧
  Delete key c = Done (Some ("key: '" +:+ key +:+ "' not found"), c) ∧
  expiredKeys nowAt c = Done ([], c) ∧
  clearItems keys c = Done (tt, c) ∧
  GC_cycle nowAt c = Done (false, c) ∧
  GC (nowAt :: scans) c = Done (tt, c) ∧
  Set_ key v ttl now now' c = Panic "assignment to entry in nil map" ∧
  ∃ e c1 c2, Flush c = Done (tt, c1) ∧
             Set_ key v ttl now now' c1 = Done (tt, c2) ∧
             cache c2 = Some {[key := {| value := v; createdAt := now';
                                         expiration := e |}]}.
Proof.
  intros Hnil.
  assert (Hlk : ∀ k, lookup_item k c = None)
    by (intros k; unfold lookup_item; by rewrite Hnil).
  assert (Hclear : clearItems keys c = Done (tt, c)).
  { rewrite clearItems_unfold, Hnil. simpl. rewrite <- Hnil.
    by rewrite with_cache_same. }
  split_and!.
  - by rewrite Get_unfold, Hlk.
  - by rewrite Delete_unfold, Hlk.
  - destruct (expiredKeys_spec nowAt c) as (ks & Hscan & Hks).
    rewrite Hscan. do 2 f_equal. destruct ks as [|k0 ks]; [done |].
    assert (Hin : k0 ∈ k0 :: ks) by by left.
    apply Hks in Hin as (item & Hk & _). by rewrite Hlk in Hk.
  - done.
  - unfold GC_cycle, map_is_nil, mbind, M_bind, mret, M_ret.
    by rewrite bool_decide_eq_true_2.
  - cbn [GC]. unfold GC_cycle, map_is_nil, mbind, M_bind, mret, M_ret.
    by rewrite bool_decide_eq_true_2.
  - by rewrite Set_unfold, Hnil.
  - eexists _, _, _. split; [done |]. rewrite Set_unfold. cbv zeta.
    by cbn [cache with_cache].
Qed.

(** *** Time *)

(** X13: expiry is monotone in the clock: with no write in between, a
    key that [Get] reports not-found stays not-found at any later reading,
    and a value found at a later reading is found, the same, at any
    earlier one. *)
Theorem Get_expiry_monotone (key : string) (t t' : Time) (c : InMemoryCache) :
  UnixNano t ≤ UnixNano t' →
  (Get key t c = Done ((None, false), c) →
   Get key t' c = Done ((None, false), c)) ∧
  (∀ r, Get key t' c = Done ((r, true), c) →
        Get key t c = Done ((r, true), c)).
Proof.
  intros Hle. rewrite !Get_unfold.
  destruct (lookup_item key c) as [item|]; [| done].
  destruct (decide (expired t item)) as [Hexp|Hlive].
  - rewrite (decide_True (P := expired t' item)); [done |].
    unfold expired in *. lia.
  - split; [by intros [=] |]. intros r.
    by destruct (decide (expired t' item)).
Qed.

(** *** The engine and its collector *)

Lemma invoke_config (op : call) (c c' : InMemoryCache) (r : @reply V) :
  invoke op c = Done (r, c') →
  defaultExpiration c' = defaultExpiration c ∧
  cleanupInterval c' = cleanupInterval c.
Proof.
  rewrite invoke_unfold. destruct op.
  - rewrite Get_unfold. by intros [= _ <-].
  - rewrite Set_unfold. cbv zeta. destruct (cache c); [| done].
    by intros [= _ <-].
  - rewrite Delete_unfold. destruct (lookup_item key c); by intros [= _ <-].
  - by intros [= _ <-].
Qed.

Lemma invoke_creates (op : call) (c c' : InMemoryCache) (r : @reply V)
    (k : string) :
  invoke op c = Done (r, c') →
  lookup_item k c = None → is_Some (lookup_item k c') →
  ∃ v ttl now now', op = CSet k v ttl now now'.
Proof.
  rewrite invoke_unfold. intros Hinv Hk Hnew. destruct op.
  - rewrite Get_unfold in Hinv. injection Hinv as _ <-.
    rewrite Hk in Hnew. by destruct Hnew.
  - rewrite Set_unfold in Hinv. cbv zeta in Hinv.
    destruct (cache c) as [m|] eqn:Hm; [| done].
    injection Hinv as _ <-. rewrite lookup_item_assign in Hnew.
    destruct (decide (key = k)) as [->|Hne]; [by eexists _, _, _, _ |].
    unfold lookup_item in Hk. rewrite Hm in Hk. simpl in Hk.
    rewrite Hk in Hnew. by destruct Hnew.
  - rewrite Delete_unfold in Hinv.
    destruct (lookup_item key c) eqn:Hkey; injection Hinv as _ <-.
    + rewrite lookup_item_delete in Hnew.
      destruct (decide (key = k)); [by destruct Hnew |].
      rewrite Hk in Hnew. by destruct Hnew.
    + rewrite Hk in Hnew. by destruct Hnew.
  - injection Hinv as _ <-. unfold lookup_item in Hnew. simpl in Hnew.
    rewrite lookup_empty in Hnew. by destruct Hnew.
Qed.

Lemma step_call_inv (op : call) (s s' : system) :
  step (Call op) s = Some s' →
  ∃ r c', invoke op (engine s) = Done (r, c') ∧
          s' = {| engine := c'; gc := gc s |}.
Proof.
  unfold step. destruct (invoke op (engine s)) as [[r c']|].
  - intros Hs. exists r, c'. split; [done |].
    destruct (gc s); congruence.
  - by destruct (gc s).
Qed.

Lemma run_invariant (P : system → Prop) (evs : list event) (s s' : system) :
  (∀ ev s1 s2, P s1 → step ev s1 = Some s2 → P s2) →
  P s → run evs s = Some s' → P s'.
Proof.
  intros Hstep. revert s. induction evs as [|ev evs IH]; intros s Hs; cbn [run].
  - by intros [= <-].
  - destruct (step ev s) as [s1|] eqn:Hev; [| done].
    apply IH. by eapply Hstep.
Qed.

(** X14: along every run from the constructor the default expiration and
    the cleanup interval keep the values given at construction, the
    collector is unstarted exactly when the interval is not positive, and
    whenever the collector is about to evict, its list of keys is not
    empty and has no repetition. *)
Theorem run_keeps_configuration (d ci : Duration) (evs : list event)
    (s : system) :
  run evs (NewInMemoryCache d ci) = Some s →
  defaultExpiration (engine s) = d ∧
  cleanupInterval (engine s) = ci ∧
  (gc s = NotStarted ↔ ci ≤ 0) ∧
  (∀ keys, gc s = Evicting keys → keys ≠ [] ∧ NoDup keys).
Proof.
  apply (run_invariant (λ s,
    defaultExpiration (engine s) = d ∧
    cleanupInterval (engine s) = ci ∧
    (gc s = NotStarted ↔ ci ≤ 0) ∧
    (∀ keys, gc s = Evicting keys → keys ≠ [] ∧ NoDup keys))).
  - intros ev s1 s2 (Hd & Hi & Hgc & Hkeys) Hstep. destruct ev as [op| |nowAt|].
    + apply step_call_inv in Hstep as (r & c' & Hinv & ->).
      destruct (invoke_config _ _ _ _ Hinv) as [Hd' Hi'].
      cbn [engine gc]. split; [congruence |]. split; [congruence |]. done.
    + unfold step in Hstep. destruct (gc s1) eqn:Hg; try done.
      unfold map_is_nil in Hstep. injection Hstep as <-. cbn [engine gc].
      split; [done |]. split; [done |]. split.
      * rewrite <- Hgc. by destruct (bool_decide _).
      * intros keys. by destruct (bool_decide _).
    + unfold step in Hstep. destruct (gc s1) eqn:Hg; try done.
      destruct (expiredKeys_spec nowAt (engine s1)) as (ks & Hscan & _).
      pose proof (expiredKeys_NoDup _ _ _ Hscan) as Hnd.
      rewrite Hscan in Hstep. injection Hstep as <-. cbn [engine gc].
      split; [done |]. split; [done |]. split.
      * rewrite <- Hgc. by destruct ks.
      * intros keys. destruct ks as [|k0 ks]; [done |].
        cbn [length Nat.eqb negb]. by intros [= <-].
    + unfold step in Hstep. destruct (gc s1) eqn:Hg; try done.
      rewrite clearItems_unfold in Hstep. injection Hstep as <-.
      cbn [engine gc]. split; [done |]. split; [done |]. split; [| done].
      by rewrite <- Hgc.
  - rewrite NewInMemoryCache_unfold. cbn [engine gc defaultExpiration cleanupInterval].
    split; [done |]. split; [done |]. split.
    + case_decide; split; done || lia.
    + intros keys. by case_decide.
Qed.

(** X15: in one transition of the engine and its collector, an entry
    appears under a key that had none only by a [Set] of that key, and a
    key loses its entry only by a [Delete] of that key, a [Flush], or an
    eviction whose scanned list contains the key. *)
Theorem step_creates_and_destroys (ev : event) (s s' : system) (k : string) :
  step ev s = Some s' →
  (lookup_item k (engine s) = None → is_Some (lookup_item k (engine s')) →
     ∃ v ttl now now', ev = Call (CSet k v ttl now now')) ∧
  (is_Some (lookup_item k (engine s)) → lookup_item k (engine s') = None →
     ev = Call (CDelete k) ∨ ev = Call CFlush ∨
     (ev = Evict ∧ ∃ keys, gc s = Evicting keys ∧ k ∈ keys)).
Proof.
  intros Hstep. destruct ev as [op| |nowAt|].
  - apply step_call_inv in Hstep as (r & c' & Hinv & ->). cbn [engine]. split.
    + intros Hk Hnew.
      destruct (invoke_creates _ _ _ _ _ Hinv Hk Hnew) as (v & ttl & now & now' & ->).
      by eexists _, _, _, _.
    + intros [item Hk] Hgone.
      destruct (invoke_entry _ _ _ _ _ _ Hinv Hk) as [Hdel _].
      destruct (Hdel Hgone) as [->| ->]; [by left | by right; left].
  - unfold step in Hstep. destruct (gc s); try done.
    unfold map_is_nil in Hstep. injection Hstep as <-. cbn [engine]. split.
    + intros Hk [? Hnew]. congruence.
    + intros [? Hk] Hgone. congruence.
  - unfold step in Hstep. destruct (gc s); try done.
    destruct (expiredKeys_spec nowAt (engine s)) as (ks & Hscan & _).
    rewrite Hscan in Hstep. injection Hstep as <-. cbn [engine]. split.
    + intros Hk [? Hnew]. congruence.
    + intros [? Hk] Hgone. congruence.
  - unfold step in Hstep. destruct (gc s) as [| | |keys|] eqn:Hg; try done.
    rewrite clearItems_unfold in Hstep. injection Hstep as <-. cbn [engine].
    rewrite clearItems_lookup. split.
    + intros Hk [? Hnew]. destruct (decide (k ∈ keys)); congruence.
    + intros [? Hk] Hgone. right; right. split; [done |].
      exists keys. split; [done |].
      destruct (decide (k ∈ keys)); [done | congruence].
Qed.

End EngineLaws.

(** ** The laws on concrete states *)

Ltac in_int64 := vm_compute; split; discriminate.

Lemma Set_then_Get_witness :
  (∃ c', Set_ "k" (Some "v") 0 100 101 (engine (NewInMemoryCache 50 10))
           = Done (tt, c') ∧
         Get "k" 150 c' = Done ((Some "v", true), c')) ∧
  (∃ c', Set_ "k" (Some "v") 0 100 101 (engine (NewInMemoryCache 50 10))
           = Done (tt, c') ∧
         Get "k" 151 c' = Done ((None, false), c')) ∧
  (∃ c', Set_ "k" (Some "v") max_int64 clock_2023 clock_2023
           (engine (NewInMemoryCache 50 10)) = Done (tt, c') ∧
         Get "k" max_int64 c' = Done ((Some "v", true), c')).
Proof.
  split_and!.
  - destruct (Set_then_Get "k" (Some "v") 0 100 101 150
                (engine (NewInMemoryCache 50 10)) ∅ eq_refl
                ltac:(in_int64) ltac:(in_int64) ltac:(in_int64) ltac:(in_int64))
      as (c' & Hset & Hget).
    exists c'. split; [exact Hset |]. rewrite Hget. reflexivity.
  - destruct (Set_then_Get "k" (Some "v") 0 100 101 151
                (engine (NewInMemoryCache 50 10)) ∅ eq_refl
                ltac:(in_int64) ltac:(in_int64) ltac:(in_int64) ltac:(in_int64))
      as (c' & Hset & Hget).
    exists c'. split; [exact Hset |]. rewrite Hget. reflexivity.
  - destruct (Set_then_Get "k" (Some "v") max_int64 clock_2023 clock_2023
                max_int64 (engine (NewInMemoryCache 50 10)) ∅ eq_refl
                ltac:(in_int64) ltac:(in_int64)
                ltac:(in_int64) ltac:(in_int64))
      as (c' & Hset & Hget).
    exists c'. split; [exact Hset |]. rewrite Hget. reflexivity.
Defined.

Lemma Set_overwrites_witness :
  ∃ c1 c2, Set_ "a" (Some "p") 7 1 1 shelf = Done (tt, c1) ∧
           Set_ "a" (Some "q") 0 2 2 c1 = Done (tt, c2) ∧
           Set_ "a" (Some "q") 0 2 2 shelf = Done (tt, c2).
Proof.
  apply (Set_overwrites "a" (Some "p") (Some "q") 7 0 1 1 2 2 shelf).
  by eexists.
Defined.

Lemma Set_commutes_witness :
  ∃ c1 c2 c', Set_ "a" (Some "p") 7 1 1 shelf = Done (tt, c1) ∧
              Set_ "d" (Some "q") 0 2 2 c1 = Done (tt, c') ∧
              Set_ "d" (Some "q") 0 2 2 shelf = Done (tt, c2) ∧
              Set_ "a" (Some "p") 7 1 1 c2 = Done (tt, c').
Proof.
  apply (Set_commutes "a" "d" (Some "p") (Some "q") 7 0 1 1 2 2 shelf).
  - discriminate.
  - by eexists.
Defined.

Lemma Set_then_Delete_witness :
  ∃ c1, Set_ "d" (Some "q") 9 2 2 shelf = Done (tt, c1) ∧
        Delete "d" c1 = Done (None, shelf).
Proof.
  destruct (Set_then_Delete "d" (Some "q") 9 2 2 shelf _ eq_refl)
    as (c1 & c2 & Hset & Hdel & _ & Hback).
  exists c1. split; [exact Hset |].
  rewrite <- (Hback eq_refl). exact Hdel.
Defined.

Lemma expiredKeys_exact_witness :
  ∃ keys, expiredKeys (λ _, 10) shelf = Done (keys, shelf) ∧
          NoDup keys ∧ "a" ∈ keys ∧ "c" ∉ keys.
Proof.
  destruct (expiredKeys_exact (λ _, 10) shelf) as (keys & Hscan & Hnd & Hkeys).
  exists keys. split; [exact Hscan |]. split; [exact Hnd |]. split.
  - apply Hkeys. exists (entry "x" 0 5). split; [reflexivity |].
    split; reflexivity.
  - intros (item & Hk & _ & Hlt)%Hkeys.
    injection Hk as <-. discriminate Hlt.
Defined.

Lemma clearItems_order_irrelevant_witness :
  clearItems ["a"; "q"; "a"] shelf = clearItems ["q"; "a"] shelf.
Proof.
  apply clearItems_order_irrelevant. intros k.
  rewrite !elem_of_cons, !elem_of_nil. tauto.
Defined.

Lemma GC_cycle_invisible_to_Get_witness :
  ∃ continue c' r, GC_cycle (λ _, 10) shelf = Done (continue, c') ∧
                   Get "a" 12 shelf = Done (r, shelf) ∧
                   Get "a" 12 c' = Done (r, c').
Proof.
  apply (GC_cycle_invisible_to_Get (λ _, 10) "a" 12 shelf). discriminate.
Defined.

Lemma Delete_expired_entry_witness :
  Get "a" 10 shelf = Done ((None, false), shelf) ∧
  (∃ c1, Delete "a" shelf = Done (None, c1)) ∧
  (∃ continue c', GC_cycle (λ _, 10) shelf = Done (continue, c') ∧
                  Delete "a" c' = Done (Some "key: 'a' not found", c')).
Proof.
  apply (Delete_expired_entry (λ _, 10) "a" (entry "x" 0 5) shelf).
  - reflexivity.
  - split; reflexivity.
Defined.

Lemma GC_loop_spec_witness :
  (∃ c', GC [(λ _, 10); (λ _, 30)] shelf = Done (tt, c') ∧
         lookup_item "a" c' = None ∧
         lookup_item "b" c' = Some (entry "y" 0 0) ∧
         lookup_item "c" c' = None) ∧
  GC_cycle (λ _, 10)
    {| cache := None; defaultExpiration := 5; cleanupInterval := 0 |}
  = Done (false, {| cache := @None (gmap string (@Item string));
                    defaultExpiration := 5; cleanupInterval := 0 |}) ∧
  (∃ c1, GC_cycle (λ _, 10) shelf = Done (true, c1)).
Proof.
  split_and!.
  - destruct (GC_loop_spec [(λ _, 10); (λ _, 30)] shelf)
      as ((c' & Hloop & _ & _ & _ & Hlk) & _ & _).
    exists c'. split; [exact Hloop |]. rewrite !Hlk. split_and!; reflexivity.
  - destruct (GC_loop_spec []
                {| cache := @None (gmap string (@Item string));
                   defaultExpiration := 5; cleanupInterval := 0 |})
      as (_ & Hnil & _).
    apply (Hnil eq_refl (λ _, 10)).
  - destruct (GC_loop_spec [] shelf) as (_ & _ & Halloc).
    destruct (Halloc ltac:(by eexists) (λ _, 10)) as (c1 & Hrun & _).
    by exists c1.
Defined.

Lemma zero_value_engine_witness :
  Get "a" 1 {| cache := None; defaultExpiration := 5; cleanupInterval := 0 |}
  = Done ((None : option string, false),
          {| cache := None; defaultExpiration := 5; cleanupInterval := 0 |}) ∧
  GC_cycle (λ _, 1)
    {| cache := None; defaultExpiration := 5; cleanupInterval := 0 |}
  = Done (false, {| cache := @None (gmap string (@Item string));
                    defaultExpiration := 5; cleanupInterval := 0 |}) ∧
  Set_ "a" (Some "x") 0 1 1
    {| cache := None; defaultExpiration := 5; cleanupInterval := 0 |}
  = Panic "assignment to entry in nil map".
Proof.
  destruct (zero_value_engine "a" (Some "x") 0 1 1 1 (λ _, 1) [] []
              {| cache := None; defaultExpiration := 5; cleanupInterval := 0 |}
              eq_refl) as (Hget & _ & _ & _ & Hcycle & _ & Hset & _).
  split; [exact Hget |]. split; [exact Hcycle | exact Hset].
Defined.

Lemma Get_expiry_monotone_witness :
  Get "a" 11 shelf = Done ((None, false), shelf) ∧
  Get "c" 10 shelf = Done ((Some "z", true), shelf).
Proof.
  split.
  - apply (proj1 (Get_expiry_monotone "a" 10 11 shelf ltac:(discriminate))).
    reflexivity.
  - apply (proj2 (Get_expiry_monotone "c" 10 11 shelf ltac:(discriminate))).
    reflexivity.
Defined.

Lemma run_keeps_configuration_witness :
  defaultExpiration (engine main_state) = 10 ∧
  cleanupInterval (engine main_state) = 20 ∧
  gc main_state ≠ NotStarted.
Proof.
  destruct (run_keeps_configuration 10 20 main_events main_state eq_refl)
    as (Hd & Hi & Hgc & _).
  split; [exact Hd |]. split; [exact Hi |].
  intros Hoff%Hgc. apply Hoff. reflexivity.
Defined.

Lemma step_creates_and_destroys_witness :
  lookup_item "a" (engine race_before_evict) = Some (entry "fresh" 10 110) ∧
  lookup_item "a" (engine race_after_evict) = None ∧
  ((Evict : @event string) = Call (CDelete "a") ∨
   (Evict : @event string) = Call CFlush ∨
   ((Evict : @event string) = Evict ∧
    ∃ keys, gc race_before_evict = Evicting keys ∧ "a" ∈ keys)).
Proof.
  split; [reflexivity |]. split; [reflexivity |].
  apply (proj2 (step_creates_and_destroys Evict race_before_evict
                  race_after_evict "a" eq_refl)).
  - by eexists.
  - reflexivity.
Defined.
